(** * Shallow embedding of the ele/eled privilege-elevation broker

    [src/eled/src/main.rs] is the daemon: the [EleD] object with [create],
    the per-process [EleProcess] objects with their D-Bus methods, and the
    reaper loop in [main].  [src/ele/src/main.rs] is the client.  Operating
    system and bus results (pty allocation, [try_wait], polkit, object
    server removal, relay I/O) enter the model as explicit inputs. *)

From stdpp Require Import base gmap list strings.
From Stdlib Require Import NArith ZArith Lia.

(* ------------------------------------------------------------------ *)
(** ** Errors and outcomes *)

(** The variants of [zbus::fdo::Error] produced by the daemon.  The
    spec's [AlreadyRunning] is the code's [FileExists]. *)
Inductive Error :=
| AccessDenied
| FileExists
| SpawnFailed
| InvalidArgs
| UnknownMethod
| UnknownObject
| InterfaceNotFound
| IOError
| InconsistentMessage
| AuthFailed.

Global Instance Error_eq_dec : EqDecision Error.
Proof. solve_decision. Defined.

(** A handler either returns, returns an error, or panics
    ([expect], [unwrap], [assert_eq!], [todo!]). *)
Inductive Outcome (A : Type) :=
| Ok (a : A)
| Err (e : Error)
| Panic.
Arguments Ok {A} a.
Arguments Err {A} e.
Arguments Panic {A}.

(* ------------------------------------------------------------------ *)
(** ** Process records *)

(** [pty_process::Pty]: the controller side, identified by its fd. *)
Record Pty := { pty_fd : nat }.

(** [pty_process::Command]: program, arguments, merged environment
    ([envs] appends, later entries win) and the optional [current_dir]. *)
Record Command := {
  cmd_program : string;
  cmd_args : list string;
  cmd_envs : list (string * string);
  cmd_cwd : option string
}.

Definition command_new (program : string) : Command :=
  {| cmd_program := program; cmd_args := []; cmd_envs := []; cmd_cwd := None |}.

Definition command_args (c : Command) (args : list string) : Command :=
  {| cmd_program := cmd_program c; cmd_args := cmd_args c ++ args;
     cmd_envs := cmd_envs c; cmd_cwd := cmd_cwd c |}.

Definition command_envs (c : Command) (env : list (string * string)) : Command :=
  {| cmd_program := cmd_program c; cmd_args := cmd_args c;
     cmd_envs := cmd_envs c ++ env; cmd_cwd := cmd_cwd c |}.

Definition command_current_dir (c : Command) (p : string) : Command :=
  {| cmd_program := cmd_program c; cmd_args := cmd_args c;
     cmd_envs := cmd_envs c; cmd_cwd := Some p |}.

(** [tokio::process::Child]: the configuration it was launched with (a
    snapshot: later changes to [Command] do not reach it), whether it has
    terminated, and the signals it has received. *)
Record Child := {
  child_pid : nat;
  child_cmd : Command;
  child_pts : nat;
  child_exited : bool;
  child_signals : list Z
}.

(** [struct EleProcess]. *)
Record EleProcess := {
  sender : string;
  pty : option Pty;
  command : Command;
  child : option Child
}.

Definition set_command (p : EleProcess) (c : Command) : EleProcess :=
  {| sender := sender p; pty := pty p; command := c; child := child p |}.
Definition set_child (p : EleProcess) (c : option Child) : EleProcess :=
  {| sender := sender p; pty := pty p; command := command p; child := c |}.
Definition set_pty (p : EleProcess) (t : option Pty) : EleProcess :=
  {| sender := sender p; pty := t; command := command p; child := child p |}.

(** The part of a message [Header] the code reads: the unique sender name. *)
Record Header := { hdr_sender : option string }.

(** [EleProcess::check_caller]. *)
Definition check_caller (p : EleProcess) (h : Header) : Outcome unit :=
  match hdr_sender h with
  | None => Err AccessDenied
  | Some s => if String.eqb s (sender p) then Ok tt else Err AccessDenied
  end.

(** Operating-system results met by [spawn]: whether [pty.pts()]
    succeeds, whether [command.spawn] succeeds, and the new pid. *)
Record SpawnOS := {
  os_pts_ok : bool;
  os_spawn_ok : bool;
  os_pid : nat
}.

(** A reply body: [()] , a single [Fd], or a [String]. *)
Inductive Reply :=
| RUnit
| RFd (fd : nat)
| RString (s : string).

(** The descriptors carried by a reply. *)
Definition reply_fds (r : Reply) : list nat :=
  match r with RFd fd => [fd] | _ => [] end.

(** A method call addressed to a [/de/ytvwld/Ele/{id}] object: the member
    name with its arguments.  [Signal] is what the client's proxy
    [EleProcess::signal] sends. *)
Inductive ProcCall :=
| CallEnvironment (environ : list (string * string))
| CallDirectory (path : string)
| CallResize
| CallSpawn
| CallSignal (n : Z).

(** The methods of [#[interface(name = "de.ytvwld.Ele1.Process")]]. *)
Definition environment (h : Header) (environ : list (string * string))
    (p : EleProcess) : Outcome Reply * EleProcess :=
  match check_caller p h with
  | Ok _ =>
      match child p with
      | Some _ => (Err FileExists, p)
      | None => (Ok RUnit, set_command p (command_envs (command p) environ))
      end
  | Err e => (Err e, p)
  | Panic => (Panic, p)
  end.

Definition directory (h : Header) (path : string)
    (p : EleProcess) : Outcome Reply * EleProcess :=
  match check_caller p h with
  | Ok _ =>
      match child p with
      | Some _ => (Err FileExists, p)
      | None => (Ok RUnit, set_command p (command_current_dir (command p) path))
      end
  | Err e => (Err e, p)
  | Panic => (Panic, p)
  end.

(** [resize] ends in [todo!()]. *)
Definition resize (h : Header) (p : EleProcess) : Outcome Reply * EleProcess :=
  match check_caller p h with
  | Ok _ => (Panic, p)
  | Err e => (Err e, p)
  | Panic => (Panic, p)
  end.

(** [spawn]: the child is launched on the pty's subordinate side and the
    controller side is returned as one [Fd::Borrowed]. *)
Definition spawn (os : SpawnOS) (h : Header) (p : EleProcess)
    : Outcome Reply * EleProcess :=
  match check_caller p h with
  | Ok _ =>
      match child p with
      | Some _ => (Err FileExists, p)
      | None =>
          match pty p with
          | None => (Panic, p)                       (* unwrap *)
          | Some t =>
              if negb (os_pts_ok os) then (Err SpawnFailed, p)
              else if negb (os_spawn_ok os) then (Err SpawnFailed, p)
              else
                let c := {| child_pid := os_pid os; child_cmd := command p;
                            child_pts := pty_fd t; child_exited := false;
                            child_signals := [] |} in
                let p' := set_child p (Some c) in
                match pty p' with
                | Some t' => (Ok (RFd (pty_fd t')), p')
                | None => (Panic, p')
                end
          end
      end
  | Err e => (Err e, p)
  | Panic => (Panic, p)
  end.

(** zbus dispatch on an [EleProcess] object: members the interface does not
    declare are answered with [UnknownMethod]. *)
Definition proc_call (os : SpawnOS) (h : Header) (c : ProcCall)
    (p : EleProcess) : Outcome Reply * EleProcess :=
  match c with
  | CallEnvironment env => environment h env p
  | CallDirectory path => directory h path p
  | CallResize => resize h p
  | CallSpawn => spawn os h p
  | CallSignal _ => (Err UnknownMethod, p)
  end.

(* ------------------------------------------------------------------ *)
(** ** Daemon state, [EleD::create] *)

(** The daemon: [EleD::next_id], the global [PROCESS_IDS] vector, the
    [EleProcess] objects of the object server (the object of id [i] lives
    at [/de/ytvwld/Ele/{i}], so it is keyed by [i]), and the descriptors
    closed explicitly by the reaper. *)
Record EleD := {
  next_id : nat;
  process_ids : list nat;
  objects : gmap nat EleProcess;
  closed_fds : list nat
}.

(** [EleD::new]. *)
Definition eled_new : EleD :=
  {| next_id := 1; process_ids := []; objects := ∅; closed_fds := [] |}.

(** Results of the collaborators met by [create]: the whole
    [check_authorization] round trip to polkit, and [Pty::new]. *)
Record CreateOS := {
  auth_result : Outcome unit;
  pty_new : option Pty
}.

(** Side effects visible outside the daemon, in the order they happen. *)
Inductive Effect :=
| EffAuthQuery
| EffPtyAlloc.

(** [EleProcess::new]: the pty is created first, then [argv] is split into
    program and arguments. *)
Definition eleprocess_new (os : CreateOS) (s : string) (argv : list string)
    : Outcome EleProcess :=
  match pty_new os with
  | None => Err SpawnFailed
  | Some t =>
      match argv with
      | [] => Err InvalidArgs
      | prog :: rest =>
          Ok {| sender := s; pty := Some t;
                command := command_args (command_new prog) rest;
                child := None |}
      end
  end.

(** [usize::MAX] on the 64-bit targets the daemon is built for. *)
Definition USIZE_MAX : N := 18446744073709551615%N.

(** [self.next_id += 1] on a [usize], as a release build compiles it: the
    addition wraps to 0 at [usize::MAX]. *)
Definition usize_incr (n : nat) : nat :=
  if N.eqb (N.of_nat n) USIZE_MAX then 0 else S n.

(** [create] up to and including [self.next_id += 1] (lines 58-69): the id
    is pushed to [PROCESS_IDS]; the object still waits to be registered by
    [object_server.at(..).await] (line 72), returned as the pending pair. *)
Definition create_begin (os : CreateOS) (h : Header) (user : string)
    (argv : list string) (st : EleD)
    : Outcome nat * EleD * option (nat * EleProcess) * list Effect :=
  match hdr_sender h with
  | None => (Err AccessDenied, st, None, [])
  | Some s =>
      if negb (String.eqb user "root") then (Panic, st, None, [])
      else
        match auth_result os with
        | Err e => (Err e, st, None, [EffAuthQuery])
        | Panic => (Panic, st, None, [EffAuthQuery])
        | Ok _ =>
            let eff := [EffAuthQuery] ++
                       (if pty_new os then [EffPtyAlloc] else []) in
            match eleprocess_new os s argv with
            | Err e => (Err e, st, None, eff)
            | Panic => (Panic, st, None, eff)
            | Ok p =>
                let id := next_id st in
                (Ok id,
                 {| next_id := usize_incr id; process_ids := process_ids st ++ [id];
                    objects := objects st; closed_fds := closed_fds st |},
                 Some (id, p), eff)
            end
        end
  end.

(** [object_server.at(path, process)]. *)
Definition publish (id : nat) (p : EleProcess) (st : EleD) : EleD :=
  {| next_id := next_id st; process_ids := process_ids st;
     objects := <[id := p]> (objects st); closed_fds := closed_fds st |}.

(** [EleD::create], run to completion.  The handler declares the
    parameters [user] and [argv] only. *)
Definition create (os : CreateOS) (h : Header) (user : string)
    (argv : list string) (st : EleD) : Outcome nat * EleD * list Effect :=
  match create_begin os h user argv st with
  | (r, st', Some (id, p), eff) => (r, publish id p st', eff)
  | (r, st', None, eff) => (r, st', eff)
  end.

(** A method call on the object of id [id]; a missing object is answered
    with [UnknownObject]. *)
Definition call_object (os : SpawnOS) (h : Header) (id : nat) (c : ProcCall)
    (st : EleD) : Outcome Reply * EleD :=
  match objects st !! id with
  | None => (Err UnknownObject, st)
  | Some p =>
      let '(r, p') := proc_call os h c p in
      (r, {| next_id := next_id st; process_ids := process_ids st;
             objects := <[id := p']> (objects st);
             closed_fds := closed_fds st |})
  end.

(* ------------------------------------------------------------------ *)
(** ** [EleProcess::check_exited] and the reaper loop of [main] *)

(** [Box<dyn Error>] as met by [main]: a bus error, a [try_wait] I/O
    error, or the string error of [check_exited]. *)
Inductive BoxError :=
| BoxFdo (e : Error)
| BoxIo
| BoxMsg (s : string).

(** What [ObjectServer::remove] answers: [Ok(true)], [Ok(false)] (the
    interface is removed, the node is kept) or an error. *)
Inductive RemoveResult :=
| RemovedDestroyed
| RemovedKept
| RemoveError.

(** Results of the collaborators met by the reaper, per process id. *)
Record ReapEnv := {
  try_wait_fails : nat -> bool;
  remove_result : nat -> RemoveResult
}.

(** [error!] lines written by the daemon. *)
Inductive LogEntry :=
| LogUnregisterFailed (id : nat).

Inductive CheckResult :=
| CROk (b : bool)
| CRErr (e : BoxError)
| CRPanic.

(** [EleProcess::check_exited] on the process [p] of id [id]: the result,
    the objects afterwards, the descriptors closed and the log lines. *)
Definition check_exited (env : ReapEnv) (id : nat) (p : EleProcess)
    (objs : gmap nat EleProcess)
    : CheckResult * gmap nat EleProcess * list nat * list LogEntry :=
  match child p with
  | None => (CROk false, objs, [], [])
  | Some c =>
      if try_wait_fails env id then (CRErr BoxIo, objs, [], [])
      else if negb (child_exited c) then (CROk false, objs, [], [])
      else
        match pty p with
        | None => (CRPanic, objs, [], [])    (* expect *)
        | Some t =>
            let p1 := set_pty p None in
            match remove_result env id with
            | RemovedDestroyed => (CROk true, delete id objs, [pty_fd t], [])
            | RemovedKept =>
                (CRErr (BoxMsg "failed to unregister process"),
                 delete id objs, [pty_fd t], [LogUnregisterFailed id])
            | RemoveError =>
                (CRErr (BoxMsg "failed to unregister process"),
                 <[id := p1]> objs, [pty_fd t], [LogUnregisterFailed id])
            end
        end
  end.

(** [Vec::remove] at an index (the index is always in range where used). *)
Fixpoint remove_nth {A} (i : nat) (l : list A) : list A :=
  match l, i with
  | [], _ => []
  | _ :: t, O => t
  | x :: t, S i' => x :: remove_nth i' t
  end.

(** Records published by [create] handlers that ran to completion while
    the reaper was suspended at one of its [.await]s. *)
Definition add_created (l : list (nat * EleProcess)) (st : EleD) : EleD :=
  {| next_id := next_id st; process_ids := process_ids st ++ map fst l;
     objects := foldr (fun '(i, p) m => <[i := p]> m) (objects st) l;
     closed_fds := closed_fds st |}.

(** The outcome of one pass of the [loop] body: the state, the ids whose
    exit was checked, the id reaped (if any) and the log; or an error that
    [?] propagates out of [main]; or a panic. *)
Inductive CycleOut :=
| CycleDone (st : EleD) (checked : list nat) (reaped : option nat)
            (log : list LogEntry)
| CycleErr (e : BoxError) (log : list LogEntry)
| CyclePanic (msg : string).

Definition MSG_NO_ID : string := "failed to get process id".
Definition MSG_NO_PTY : string := "running process doesn't have a pty".

(** [for id_idx in 0..len { ... }] with [n] iterations left at index
    [idx]; [adds idx] are the records created before the re-read of
    index [idx]. *)
Fixpoint scan (env : ReapEnv) (adds : nat -> list (nat * EleProcess))
    (n idx : nat) (st : EleD) (checked : list nat) : CycleOut :=
  match n with
  | O => CycleDone st checked None []
  | S n' =>
      let st := add_created (adds idx) st in
      match nth_error (process_ids st) idx with
      | None => CyclePanic MSG_NO_ID                      (* expect *)
      | Some id =>
          match objects st !! id with
          | None => CycleErr (BoxFdo InterfaceNotFound) []   (* ? *)
          | Some p =>
              match check_exited env id p (objects st) with
              | (CROk true, objs, cl, log) =>
                  CycleDone {| next_id := next_id st;
                               process_ids := remove_nth idx (process_ids st);
                               objects := objs;
                               closed_fds := closed_fds st ++ cl |}
                            (checked ++ [id]) (Some id) log      (* break *)
              | (CROk false, objs, cl, _) =>
                  scan env adds n' (S idx)
                       {| next_id := next_id st;
                          process_ids := process_ids st;
                          objects := objs;
                          closed_fds := closed_fds st ++ cl |}
                       (checked ++ [id])
              | (CRErr e, _, _, log) => CycleErr e log
              | (CRPanic, _, _, _) => CyclePanic MSG_NO_PTY
              end
          end
      end
  end.

Definition no_adds : nat -> list (nat * EleProcess) := fun _ => [].

(** One pass of the loop body: [len] is read once, then the scan. *)
Definition cycle (env : ReapEnv) (adds : nat -> list (nat * EleProcess))
    (st : EleD) : CycleOut :=
  scan env adds (length (process_ids st)) 0 st [].

Inductive MainOut :=
| MainRunning (st : EleD)
| MainErr (e : BoxError) (log : list LogEntry)
| MainPanic (msg : string).

(** [loop { ...; sleep(2s) }] run for [fuel] passes. *)
Fixpoint main_loop (env : ReapEnv) (fuel : nat) (st : EleD) : MainOut :=
  match fuel with
  | O => MainRunning st
  | S f =>
      match cycle env no_adds st with
      | CycleDone st' _ _ _ => main_loop env f st'
      | CycleErr e log => MainErr e log
      | CyclePanic msg => MainPanic msg
      end
  end.

(* ------------------------------------------------------------------ *)
(** ** The daemon as a transition system

    Handlers and the reaper interleave on one thread at their [.await]s.
    [create] is split at [object_server.at(..).await] (line 72): between
    [PROCESS_IDS.write().await.push(id)] and the registration, other tasks
    may run; [w_pending] holds the suspended registrations.  The reaper's
    loop body is split per index (the [.await]s of lines 221, 225 and 226):
    [w_reaper] is [Some (n, idx)] while [n] iterations of the [for] loop
    remain at index [idx], and [None] while it sleeps.  A child may
    terminate at any time.  [w_alive] becomes false when [main] returns or
    panics. *)
Record World := {
  w_st : EleD;
  w_pending : list (nat * EleProcess);
  w_reaper : option (nat * nat);
  w_alive : bool
}.

Definition world_init : World :=
  {| w_st := eled_new; w_pending := []; w_reaper := None; w_alive := true |}.

(** The child of record [id] terminates (an event of the operating
    system, seen by the next [try_wait]). *)
Definition child_terminates (st : EleD) (id : nat) : EleD :=
  match objects st !! id with
  | Some p =>
      match child p with
      | Some c =>
          {| next_id := next_id st; process_ids := process_ids st;
             objects := <[id := set_child p
                          (Some {| child_pid := child_pid c; child_cmd := child_cmd c;
                                   child_pts := child_pts c; child_exited := true;
                                   child_signals := child_signals c |})]> (objects st);
             closed_fds := closed_fds st |}
      | None => st
      end
  | None => st
  end.

Inductive step : World -> World -> Prop :=
| StepCreateBegin os h user argv w r st' pend eff :
    w_alive w = true ->
    create_begin os h user argv (w_st w) = (r, st', pend, eff) ->
    step w {| w_st := st';
              w_pending := match pend with Some x => [x] | None => [] end
                           ++ w_pending w;
              w_reaper := w_reaper w; w_alive := true |}
| StepPublish w l1 id p l2 :
    w_alive w = true ->
    w_pending w = l1 ++ (id, p) :: l2 ->
    step w {| w_st := publish id p (w_st w); w_pending := l1 ++ l2;
              w_reaper := w_reaper w; w_alive := true |}
| StepCall os h id c w r st' :
    w_alive w = true ->
    call_object os h id c (w_st w) = (r, st') ->
    step w {| w_st := st'; w_pending := w_pending w;
              w_reaper := w_reaper w; w_alive := true |}
| StepChildExit w id :
    w_alive w = true ->
    step w {| w_st := child_terminates (w_st w) id; w_pending := w_pending w;
              w_reaper := w_reaper w; w_alive := true |}
| StepReapStart w :
    w_alive w = true -> w_reaper w = None ->
    step w {| w_st := w_st w; w_pending := w_pending w;
              w_reaper := Some (length (process_ids (w_st w)), 0);
              w_alive := true |}
| StepReapIndex env w n idx st' chk rp log :
    w_alive w = true -> w_reaper w = Some (S n, idx) ->
    scan env no_adds 1 idx (w_st w) [] = CycleDone st' chk rp log ->
    step w {| w_st := st'; w_pending := w_pending w;
              w_reaper := match rp with
                          | None => Some (n, S idx)
                          | Some _ => None                     (* break *)
                          end;
              w_alive := true |}
| StepReapEnd w idx :
    w_alive w = true -> w_reaper w = Some (0, idx) ->
    step w {| w_st := w_st w; w_pending := w_pending w; w_reaper := None;
              w_alive := true |}
| StepReapErr env w n idx e log :
    w_alive w = true -> w_reaper w = Some (S n, idx) ->
    scan env no_adds 1 idx (w_st w) [] = CycleErr e log ->
    step w {| w_st := w_st w; w_pending := w_pending w; w_reaper := w_reaper w;
              w_alive := false |}
| StepReapPanic env w n idx msg :
    w_alive w = true -> w_reaper w = Some (S n, idx) ->
    scan env no_adds 1 idx (w_st w) [] = CyclePanic msg ->
    step w {| w_st := w_st w; w_pending := w_pending w; w_reaper := w_reaper w;
              w_alive := false |}.

Inductive reachable : World -> Prop :=
| reach_init : reachable world_init
| reach_step w w' : reachable w -> step w w' -> reachable w'.

(** The registry/publication correspondence of the spec, as a decidable
    check on one id. *)
Definition registered_iff_published (st : EleD) (id : nat) : bool :=
  eqb (bool_decide (id ∈ process_ids st)) (bool_decide (is_Some (objects st !! id))).

(* ------------------------------------------------------------------ *)
(** ** The client, [src/ele/src/main.rs] *)

(** [SignalKind::interrupt().as_raw_value()]. *)
Definition SIGINT : Z := 2.

(** One iteration of the signal-forwarding task:
    [process.signal(kind.as_raw_value() as i32).await.unwrap()]. *)
Definition forward_interrupt (reply : Outcome Reply) : Outcome unit :=
  match reply with
  | Ok _ => Ok tt
  | _ => Panic
  end.

(** [nix::sys::termios::Termios], reduced to the flags [cfmakeraw] clears. *)
Record Termios := {
  t_icanon : bool;
  t_isig : bool;
  t_echo : bool;
  t_opost : bool
}.

Definition cfmakeraw (t : Termios) : Termios :=
  {| t_icanon := false; t_isig := false; t_echo := false; t_opost := false |}.

(** What the interactive branch meets: whether the received descriptor is a
    terminal, whether stdin and stdout are ttys, and how
    [copy_bidirectional] ends. *)
Record TermEnv := {
  fd_is_terminal : bool;
  stdin_isatty : bool;
  stdout_isatty : bool;
  relay_ok : bool
}.

(** [set_raw]: [Ok None] if either side is not a tty, otherwise the old
    attributes, after [tcsetattr] with the raw ones (listed in the second
    component). *)
Definition set_raw (env : TermEnv) (cur : Termios)
    : Outcome (option Termios) * list Termios :=
  if negb (stdin_isatty env) then (Ok None, [])
  else if negb (stdout_isatty env) then (Ok None, [])
  else let old_attrs := cur in
       let new_attrs := cfmakeraw old_attrs in
       (Ok (Some old_attrs), [new_attrs]).

(** The result of the interactive branch: its result, every [tcsetattr]
    in order, and the number of [reset_terminal] calls. *)
Record InteractiveOut := {
  io_result : Outcome unit;
  io_tcsetattr : list Termios;
  io_restores : nat
}.

(** Lines 85-98 of the client's [main]. *)
Definition interactive_branch (env : TermEnv) (cur : Termios) : InteractiveOut :=
  if negb (fd_is_terminal env) then
    {| io_result := Panic; io_tcsetattr := []; io_restores := 0 |}   (* assert! *)
  else
    match set_raw env cur with
    | (Ok old_attrs, sets) =>
        if negb (relay_ok env) then
          {| io_result := Err IOError; io_tcsetattr := sets; io_restores := 0 |}  (* ? *)
        else
          match old_attrs with
          | Some attrs =>
              {| io_result := Ok tt; io_tcsetattr := sets ++ [attrs];
                 io_restores := 1 |}
          | None => {| io_result := Ok tt; io_tcsetattr := sets; io_restores := 0 |}
          end
    | (Err e, sets) => {| io_result := Err e; io_tcsetattr := sets; io_restores := 0 |}
    | (Panic, sets) => {| io_result := Panic; io_tcsetattr := sets; io_restores := 0 |}
    end.

(** The terminal mode left behind: the last attributes set, if any. *)
Definition final_mode (cur : Termios) (o : InteractiveOut) : Termios :=
  default cur (list.last (io_tcsetattr o)).

(* ------------------------------------------------------------------ *)
(** ** [EleD::check_authorization] *)

(** [zbus_polkit::Error] as met by [Subject::new_for_message_header]. *)
Inductive PolkitError :=
| PkIo
| PkParseInt
| PkBadSender
| PkMissingSender
| PkOther.

(** The three bus round trips of [check_authorization]:
    [AuthorityProxy::new] (an error is converted by [?]), building the
    subject, and [CheckAuthorization] (an error, or [is_authorized]). *)
Record AuthorityOS := {
  authority_proxy : option Error;
  subject_result : option PolkitError;
  polkit_reply : Error + bool
}.

(** The [map_err] of lines 27-33. *)
Definition subject_error (e : PolkitError) : Error :=
  match e with
  | PkIo => IOError
  | PkParseInt => InvalidArgs
  | PkBadSender => InconsistentMessage
  | PkMissingSender => InconsistentMessage
  | PkOther => AuthFailed
  end.

(** [EleD::check_authorization]. *)
Definition check_authorization (a : AuthorityOS) : Outcome unit :=
  match authority_proxy a with
  | Some e => Err e
  | None =>
      match subject_result a with
      | Some pe => Err (subject_error pe)
      | None =>
          match polkit_reply a with
          | inl e => Err e
          | inr true => Ok tt
          | inr false => Err AccessDenied
          end
      end
  end.

(** The collaborators of [create], with the authorization computed by
    [check_authorization]. *)
Definition create_os (a : AuthorityOS) (t : option Pty) : CreateOS :=
  {| auth_result := check_authorization a; pty_new := t |}.

(* ------------------------------------------------------------------ *)
(** ** Derived predicates *)

(** Whether [try_wait] would report the record's child as terminated, the
    test of line 128 of [check_exited]. *)
Definition has_exited (p : EleProcess) : bool :=
  match child p with
  | Some c => child_exited c
  | None => false
  end.

(** What the daemon keeps in every reachable state: every published or
    pending record still owns its pty, and an index the reaper is about to
    re-read lies below the registry length. *)
Definition world_safe (w : World) : Prop :=
  (forall id p, objects (w_st w) !! id = Some p -> pty p <> None) /\
  (forall id p, In (id, p) (w_pending w) -> pty p <> None) /\
  (forall n idx, w_reaper w = Some (n, idx) ->
     idx + n <= length (process_ids (w_st w))).

(* ------------------------------------------------------------------ *)
(** ** Concrete inputs *)

Definition owner : string := ":1.42".
Definition intruder : string := ":1.99".
Definition h_owner : Header := {| hdr_sender := Some owner |}.
Definition h_intruder : Header := {| hdr_sender := Some intruder |}.

Definition os_ok : SpawnOS := {| os_pts_ok := true; os_spawn_ok := true; os_pid := 100 |}.
Definition cos_ok : CreateOS := {| auth_result := Ok tt; pty_new := Some {| pty_fd := 7 |} |}.

(** A record as [create("root", ["/bin/echo", "hi"])] builds it. *)
Definition proc_cfg : EleProcess :=
  {| sender := owner; pty := Some {| pty_fd := 7 |};
     command := command_args (command_new "/bin/echo") ["hi"]; child := None |}.

(** The same record after a successful [spawn]. *)
Definition proc_run : EleProcess := snd (spawn os_ok h_owner proc_cfg).

(** The same record once its child has terminated. *)
Definition proc_done : EleProcess :=
  match child proc_run with
  | Some c => set_child proc_run
                (Some {| child_pid := child_pid c; child_cmd := child_cmd c;
                         child_pts := child_pts c; child_exited := true;
                         child_signals := child_signals c |})
  | None => proc_run
  end.

(** A second terminated record, on another pty. *)
Definition proc_done2 : EleProcess :=
  {| sender := owner; pty := Some {| pty_fd := 8 |}; command := command proc_done;
     child := child proc_done |}.


(** The daemon with record 1 registered, published and terminated. *)
Definition st_one_done : EleD :=
  {| next_id := 2; process_ids := [1];
     objects := <[1 := proc_done]> ∅; closed_fds := [] |}.

(** The daemon with record 1 registered, published and not spawned, and
    record 2 registered, published and terminated. *)
Definition st_cfg_then_done : EleD :=
  {| next_id := 3; process_ids := [1; 2];
     objects := <[2 := proc_done2]> (<[1 := proc_cfg]> ∅); closed_fds := [] |}.

(** The reaper's collaborators all succeed. *)
Definition env_ok : ReapEnv :=
  {| try_wait_fails := fun _ => false; remove_result := fun _ => RemovedDestroyed |}.

(** [ObjectServer::remove] answers [Ok(false)]. *)
Definition env_rm_kept : ReapEnv :=
  {| try_wait_fails := fun _ => false; remove_result := fun _ => RemovedKept |}.

(** The first [create("root", ["/bin/echo", "hi"])] suspended at
    [object_server.at(..).await]. *)
Definition w_create_suspended : World :=
  match create_begin cos_ok h_owner "root" ["/bin/echo"; "hi"] (w_st world_init) with
  | (_, st', pend, _) =>
      {| w_st := st';
         w_pending := match pend with Some x => [x] | None => [] end ++ [];
         w_reaper := None; w_alive := true |}
  end.

(** The same run once [object_server.at] has registered record 1. *)
Definition w_published : World :=
  {| w_st := publish 1 proc_cfg (w_st w_create_suspended); w_pending := [];
     w_reaper := None; w_alive := true |}.

(** The reaper wakes up there, with one index to visit. *)
Definition w_reaping : World :=
  {| w_st := w_st w_published; w_pending := []; w_reaper := Some (1, 0);
     w_alive := true |}.

(** A terminal in cooked mode. *)
Definition cooked : Termios :=
  {| t_icanon := true; t_isig := true; t_echo := true; t_opost := true |}.

Example proc_run_spawned : exists c, child proc_run = Some c /\ child_exited c = false.
Proof. eexists; split; reflexivity. Qed.

(* ------------------------------------------------------------------ *)
(** ** General facts about the [EleProcess] methods *)

Lemma check_caller_denied (p : EleProcess) (h : Header) :
  hdr_sender h <> Some (sender p) -> check_caller p h = Err AccessDenied.
Proof.
  unfold check_caller. destruct (hdr_sender h) as [s|]; [|reflexivity].
  intros Hs. destruct (String.eqb_spec s (sender p)); [congruence|reflexivity].
Qed.

Lemma check_caller_owner (p : EleProcess) (h : Header) :
  hdr_sender h = Some (sender p) -> check_caller p h = Ok tt.
Proof.
  unfold check_caller. intros ->. by rewrite String.eqb_refl.
Qed.

(** The three declared mutators reject a non-owner and keep the record. *)
Lemma non_owner_denied (os : SpawnOS) (h : Header) (p : EleProcess)
    (env : list (string * string)) (path : string) :
  hdr_sender h <> Some (sender p) ->
  environment h env p = (Err AccessDenied, p) /\
  directory h path p = (Err AccessDenied, p) /\
  spawn os h p = (Err AccessDenied, p) /\
  resize h p = (Err AccessDenied, p).
Proof.
  intros Hs. unfold environment, directory, spawn, resize.
  rewrite (check_caller_denied p h Hs). auto.
Qed.

(** A successful [spawn] keeps the owner and pty and installs a child. *)
Lemma spawn_ok_inv (os : SpawnOS) (h : Header) (p : EleProcess)
    (r : Reply) (p' : EleProcess) :
  spawn os h p = (Ok r, p') ->
  hdr_sender h = Some (sender p) /\ child p = None /\
  exists t c, pty p = Some t /\ r = RFd (pty_fd t) /\ p' = set_child p (Some c) /\
              child_cmd c = command p /\ child_exited c = false.
Proof.
  unfold spawn, check_caller.
  destruct (hdr_sender h) as [s|] eqn:Hs; [|discriminate].
  destruct (String.eqb_spec s (sender p)) as [->|]; [|discriminate].
  destruct (child p) eqn:Hc; [discriminate|].
  destruct (pty p) as [t|] eqn:Ht; [|discriminate].
  destruct (os_pts_ok os); [|discriminate].
  destruct (os_spawn_ok os); [|discriminate].
  simpl. rewrite Ht. intros [= <- <-].
  repeat split; auto. do 2 eexists. repeat split; eauto.
Qed.

(* ------------------------------------------------------------------ *)
(** ** Ownership checks and the missing [signal] method *)

(** C1 (failing input): the owner check holds for [Environment],
    [Directory] and [Spawn], but a [Signal] call from a non-owner, before
    or after spawn, is answered [UnknownMethod], not [AccessDenied]: the
    daemon's interface declares no [signal] method. *)
Theorem C1_signal_call_is_unknown_method :
  environment h_intruder [("A", "1")] proc_cfg = (Err AccessDenied, proc_cfg) /\
  directory h_intruder "/tmp" proc_cfg = (Err AccessDenied, proc_cfg) /\
  spawn os_ok h_intruder proc_cfg = (Err AccessDenied, proc_cfg) /\
  proc_call os_ok h_intruder (CallSignal SIGINT) proc_cfg
    = (Err UnknownMethod, proc_cfg) /\
  proc_call os_ok h_intruder (CallSignal SIGINT) proc_run
    = (Err UnknownMethod, proc_run).
Proof. repeat split; reflexivity. Qed.

(** C2 (failing input): for every record, whoever the caller and whatever
    the signal number, a [Signal] call is answered [UnknownMethod] and the
    record, its child included, is unchanged: no signal reaches the child.
    The client's forwarding task [unwrap]s that reply and panics. *)
Theorem C2_signal_never_forwarded (os : SpawnOS) (h : Header) (n : Z)
    (p : EleProcess) :
  proc_call os h (CallSignal n) p = (Err UnknownMethod, p) /\
  forward_interrupt (fst (proc_call os h (CallSignal SIGINT) p)) = Panic.
Proof. split; reflexivity. Qed.

(** C4: once a record has a child (a successful [spawn] installs one, see
    [spawn_ok_inv]), the owner's [Environment], [Directory] and [Spawn]
    calls fail with [FileExists] (the spec's [AlreadyRunning]); every
    caller's call of these three fails and leaves the record, hence the
    child and its launch configuration, unchanged. *)
Theorem C4_spawned_rejects_reconfiguration (p : EleProcess) (c : Child)
    (Hc : child p = Some c) :
  forall (os : SpawnOS) (h : Header) (env : list (string * string)) (path : string),
    (hdr_sender h = Some (sender p) ->
       environment h env p = (Err FileExists, p) /\
       directory h path p = (Err FileExists, p) /\
       spawn os h p = (Err FileExists, p)) /\
    snd (environment h env p) = p /\ snd (directory h path p) = p /\
    snd (spawn os h p) = p /\
    (exists e, fst (environment h env p) = Err e) /\
    (exists e, fst (directory h path p) = Err e) /\
    (exists e, fst (spawn os h p) = Err e).
Proof.
  intros os h env path.
  destruct (decide (hdr_sender h = Some (sender p))) as [Hs|Hs].
  - unfold environment, directory, spawn.
    rewrite (check_caller_owner p h Hs), Hc. simpl.
    repeat split; eauto.
  - destruct (non_owner_denied os h p env path Hs) as (He & Hd & Hsp & _).
    rewrite He, Hd, Hsp. simpl. repeat split; eauto; congruence.
Qed.

Lemma C4_spawned_rejects_reconfiguration_witness :
  child proc_run <> None /\
  environment h_owner [("A", "1")] proc_run = (Err FileExists, proc_run).
Proof.
  destruct (child proc_run) as [c|] eqn:Hc; [|discriminate].
  split; [discriminate|].
  apply (C4_spawned_rejects_reconfiguration proc_run c Hc os_ok h_owner
           [("A", "1")] "/"); reflexivity.
Defined.

(* ------------------------------------------------------------------ *)
(** ** [create] with an empty [argv] *)

Definition cos_no_pty : CreateOS := {| auth_result := Ok tt; pty_new := None |}.

(** C7 counterexample: an authorized [create("root", [])] whose [Pty::new]
    fails returns [SpawnFailed], not [InvalidArgs]. *)
Lemma C7_empty_argv_spawn_failed :
  create cos_no_pty h_owner "root" [] eled_new
    = (Err SpawnFailed, eled_new, [EffAuthQuery]).
Proof. reflexivity. Qed.

(** C7 (amended): [create] with an empty [argv] never succeeds and leaves
    the daemon state unchanged (no object, no registry entry, no id
    consumed).  Its checks run in a fixed order: a missing sender gives
    [AccessDenied] and a user other than root panics, both before any
    effect; then the polkit query runs and its failure is returned (which
    may itself be [InvalidArgs]); then [Pty::new] runs, a failure giving
    [SpawnFailed]; only then does the empty [argv] give [InvalidArgs]. *)
Theorem C7_empty_argv_order (os : CreateOS) (h : Header) (user : string)
    (st : EleD) :
  let '(r, st', eff) := create os h user [] st in
  st' = st /\ (forall v, r <> Ok v) /\
  r = match hdr_sender h with
      | None => Err AccessDenied
      | Some _ =>
          if String.eqb user "root" then
            match auth_result os with
            | Ok _ =>
                match pty_new os with
                | Some _ => Err InvalidArgs
                | None => Err SpawnFailed
                end
            | Err e => Err e
            | Panic => Panic
            end
          else Panic
      end /\
  eff = match hdr_sender h with
        | None => []
        | Some _ =>
            if String.eqb user "root" then
              EffAuthQuery ::
                match auth_result os with
                | Ok _ =>
                    match pty_new os with
                    | Some _ => [EffPtyAlloc]
                    | None => []
                    end
                | _ => []
                end
            else []
        end.
Proof.
  unfold create, create_begin, eleprocess_new.
  destruct (hdr_sender h) as [s|]; simpl;
    [|repeat split; try (intros ?; discriminate)].
  destruct (String.eqb user "root"); simpl;
    [|repeat split; try (intros ?; discriminate)].
  destruct (auth_result os) as [[]|e|];
    [destruct (pty_new os) | |]; simpl;
    repeat split; try (intros ?; discriminate).
Qed.

(* ------------------------------------------------------------------ *)
(** ** What [spawn] returns *)

(** C8 (failing input): the record created by a non-interactive session,
    [create("root", ["/bin/echo", "hi"])], gets a single descriptor from
    [spawn], not three. *)
Lemma C8_noninteractive_gets_one_fd :
  fst (call_object os_ok h_owner 1 CallSpawn
         (snd (fst (create cos_ok h_owner "root" ["/bin/echo"; "hi"] eled_new))))
    = Ok (RFd 7) /\
  length (reply_fds (RFd 7)) = 1.
Proof. split; reflexivity. Qed.

(** C8: the daemon's [create] declares no interactive flag, and a
    successful [spawn] returns exactly one descriptor, the controller side
    of the record's pty, whatever the record; never the three descriptors
    the client's non-interactive branch takes. *)
Theorem C8_spawn_returns_pty_controller (os : SpawnOS) (h : Header)
    (p : EleProcess) (r : Reply) (p' : EleProcess)
    (Hsp : spawn os h p = (Ok r, p')) :
  exists t, pty p = Some t /\ reply_fds r = [pty_fd t].
Proof.
  destruct (spawn_ok_inv os h p r p' Hsp) as (_ & _ & t & c & Ht & -> & _).
  exists t. split; [exact Ht | reflexivity].
Qed.

Lemma C8_spawn_returns_pty_controller_witness :
  exists t, pty proc_cfg = Some t /\ reply_fds (RFd 7) = [pty_fd t].
Proof.
  apply (C8_spawn_returns_pty_controller os_ok h_owner proc_cfg (RFd 7) proc_run).
  reflexivity.
Defined.

(* ------------------------------------------------------------------ *)
(** ** Facts about the reaper *)

Lemma add_created_nil (st : EleD) : add_created [] st = st.
Proof. destruct st; unfold add_created; simpl. by rewrite app_nil_r. Qed.


Lemma check_exited_false (env : ReapEnv) (id : nat) (p : EleProcess)
    (objs objs' : gmap nat EleProcess) (cl : list nat) (log : list LogEntry) :
  check_exited env id p objs = (CROk false, objs', cl, log) ->
  objs' = objs /\ cl = [].
Proof.
  unfold check_exited.
  destruct (child p) as [c|]; [|by intros [= <- <-]].
  destruct (try_wait_fails env id); [discriminate|].
  destruct (child_exited c); simpl; [|by intros [= <- <-]].
  destruct (pty p); [|discriminate].
  destruct (remove_result env id); discriminate.
Qed.

Lemma check_exited_true (env : ReapEnv) (id : nat) (p : EleProcess)
    (objs objs' : gmap nat EleProcess) (cl : list nat) (log : list LogEntry) :
  check_exited env id p objs = (CROk true, objs', cl, log) ->
  objs' = delete id objs /\ exists c, child p = Some c.
Proof.
  unfold check_exited.
  destruct (child p) as [c|]; [|discriminate].
  destruct (try_wait_fails env id); [discriminate|].
  destruct (child_exited c); simpl; [|discriminate].
  destruct (pty p); [|discriminate].
  destruct (remove_result env id); [|discriminate|discriminate].
  intros [= <- _ _]. eauto.
Qed.

Lemma check_exited_unspawned (env : ReapEnv) (id : nat) (p : EleProcess)
    (objs : gmap nat EleProcess) :
  child p = None -> check_exited env id p objs = (CROk false, objs, [], []).
Proof. unfold check_exited. by intros ->. Qed.

Lemma remove_nth_keeps {A} (x y : A) (i : nat) (l : list A) :
  In x l -> nth_error l i = Some y -> x <> y -> In x (remove_nth i l).
Proof.
  revert i. induction l as [|a l IH]; intros i Hx Hy Hne; [done|].
  destruct i as [|i]; simpl in *.
  - injection Hy as ->. destruct Hx; [congruence|done].
  - destruct Hx as [->|Hx]; [by left|right; eauto].
Qed.

(** One cycle never reclaims an unspawned record. *)
Lemma scan_keeps_unspawned (env : ReapEnv) (id : nat) (p : EleProcess)
    (Hc : child p = None) :
  forall n idx st chk st' chk' r log,
    scan env no_adds n idx st chk = CycleDone st' chk' r log ->
    In id (process_ids st) -> objects st !! id = Some p ->
    In id (process_ids st') /\ objects st' !! id = Some p.
Proof.
  induction n as [|n IH]; intros idx st chk st' chk' r log Hs Hin Hp;
    cbn [scan] in Hs.
  - by injection Hs as <- _ _ _.
  - unfold no_adds in Hs. rewrite add_created_nil in Hs. cbv zeta in Hs.
    destruct (nth_error (process_ids st) idx) as [id0|] eqn:Hn; [|discriminate].
    destruct (objects st !! id0) as [p0|] eqn:Hp0; [|discriminate].
    destruct (check_exited env id0 p0 (objects st)) as [[[res objs] cl] lg] eqn:Hce.
    destruct res as [[]| |]; try discriminate.
    + injection Hs as <- _ _ _. simpl.
      destruct (check_exited_true _ _ _ _ _ _ _ Hce) as [-> [c Hc0]].
      assert (id <> id0) as Hne.
      { intros ->. rewrite Hp in Hp0. injection Hp0 as <-. congruence. }
      split; [by apply remove_nth_keeps with id0|].
      by rewrite lookup_delete_ne by congruence.
    + destruct (check_exited_false _ _ _ _ _ _ _ Hce) as [-> ->].
      eapply IH; [exact Hs|exact Hin|exact Hp].
Qed.

(** C10: a record that was never spawned is never reclaimed: its exit
    check answers [false] and changes nothing, and after any number of
    reaper cycles its id is still registered and the same record (pty
    included) is still published. *)
Theorem C10_unspawned_record_never_reclaimed (env : ReapEnv) (st : EleD)
    (id : nat) (p : EleProcess)
    (Hc : child p = None) (Hin : In id (process_ids st))
    (Hp : objects st !! id = Some p) :
  check_exited env id p (objects st) = (CROk false, objects st, [], []) /\
  forall fuel st', main_loop env fuel st = MainRunning st' ->
    In id (process_ids st') /\ objects st' !! id = Some p.
Proof.
  split; [by apply check_exited_unspawned|].
  intros fuel. revert st Hin Hp. induction fuel as [|f IH]; intros st Hin Hp st' Hm.
  - by injection Hm as <-.
  - simpl in Hm. unfold cycle in Hm.
    destruct (scan env no_adds (length (process_ids st)) 0 st [])
      as [st1 chk r log| |] eqn:Hs; try discriminate.
    destruct (scan_keeps_unspawned env id p Hc _ _ _ _ _ _ _ _ Hs Hin Hp) as [Hin1 Hp1].
    exact (IH st1 Hin1 Hp1 st' Hm).
Qed.

Lemma C10_unspawned_record_never_reclaimed_witness :
  check_exited env_ok 1 proc_cfg (<[1 := proc_cfg]> ∅)
    = (CROk false, <[1 := proc_cfg]> ∅, [], []).
Proof.
  exact (proj1 (C10_unspawned_record_never_reclaimed env_ok
    {| next_id := 2; process_ids := [1]; objects := <[1 := proc_cfg]> ∅;
       closed_fds := [] |} 1 proc_cfg eq_refl (or_introl eq_refl) eq_refl)).
Defined.

Lemma firstn_snoc {A} (l : list A) (i : nat) (x : A) :
  nth_error l i = Some x -> firstn i l ++ [x] = firstn (S i) l.
Proof.
  revert i. induction l as [|a l IH]; intros [|i] H; simpl in *; try discriminate.
  - by injection H as ->.
  - f_equal. by apply IH.
Qed.


(** Without concurrent creations, a cycle checks a prefix of the registry
    and removes at most the last id checked. *)
Lemma scan_shape (env : ReapEnv) :
  forall n idx st chk st' chk' r log,
    scan env no_adds n idx st chk = CycleDone st' chk' r log ->
    idx + n = length (process_ids st) -> chk = firstn idx (process_ids st) ->
    (r = None -> process_ids st' = process_ids st /\ chk' = process_ids st) /\
    (forall id, r = Some id -> exists i,
        nth_error (process_ids st) i = Some id /\
        process_ids st' = remove_nth i (process_ids st) /\
        chk' = firstn (S i) (process_ids st)).
Proof.
  induction n as [|n IH]; intros idx st chk st' chk' r log Hs Hlen Hchk;
    cbn [scan] in Hs.
  - injection Hs as <- <- <- _. split; [|discriminate].
    intros _. split; [done|]. rewrite Nat.add_0_r in Hlen. subst idx.
    rewrite Hchk. apply firstn_all.
  - unfold no_adds in Hs. rewrite add_created_nil in Hs. cbv zeta in Hs.
    destruct (nth_error (process_ids st) idx) as [id0|] eqn:Hn; [|discriminate].
    destruct (objects st !! id0) as [p0|]; [|discriminate].
    destruct (check_exited env id0 p0 (objects st)) as [[[res objs] cl] lg] eqn:Hce.
    destruct res as [[]| |]; try discriminate.
    + injection Hs as <- <- <- _. split; [discriminate|].
      intros id [= <-]. exists idx. split; [done|]. split; [done|].
      rewrite Hchk. by apply firstn_snoc.
    + specialize (IH (S idx) _ _ _ _ _ _ Hs). simpl in IH.
      apply IH; [lia|]. rewrite Hchk. by apply firstn_snoc.
Qed.

(** ** Reaper cleanup, method calls, configuration, terminal *)



(** A record whose child has not terminated, and whose [try_wait] (if it
    has a child) succeeds, is passed over with no effect. *)
Lemma check_exited_pass (env : ReapEnv) (id : nat) (p : EleProcess)
    (objs : gmap nat EleProcess) :
  has_exited p = false -> (child p = None \/ try_wait_fails env id = false) ->
  check_exited env id p objs = (CROk false, objs, [], []).
Proof.
  unfold check_exited, has_exited. destruct (child p) as [c|]; [|done].
  intros Hx [Hc|Hw]; [discriminate|]. by rewrite Hw, Hx.
Qed.


(** A scan reaching index [i], all earlier records passing, ends in the
    error [check_exited] returns for the record at [i]. *)
Lemma scan_err_at (env : ReapEnv) (st : EleD) (i id : nat) (p : EleProcess)
    (e : BoxError) (log : list LogEntry) (objs : gmap nat EleProcess)
    (cl : list nat)
    (Hi : nth_error (process_ids st) i = Some id)
    (Hp : objects st !! id = Some p)
    (Hce : check_exited env id p (objects st) = (CRErr e, objs, cl, log))
    (Hb : forall j id', j < i -> nth_error (process_ids st) j = Some id' ->
        exists p', objects st !! id' = Some p' /\ has_exited p' = false /\
                   (child p' = None \/ try_wait_fails env id' = false)) :
  forall n idx chk st0,
    process_ids st0 = process_ids st -> objects st0 = objects st ->
    idx <= i -> i < idx + n -> scan env no_adds n idx st0 chk = CycleErr e log.
Proof.
  induction n as [|n IH]; intros idx chk st0 Hids Hobj Hle Hlt; [lia|].
  cbn [scan]. unfold no_adds. rewrite add_created_nil. cbv zeta.
  rewrite Hids, Hobj.
  destruct (decide (idx = i)) as [->|Hne].
  - rewrite Hi, Hp, Hce. reflexivity.
  - assert (Hlt' : idx < i) by lia.
    destruct (nth_error (process_ids st) idx) as [id'|] eqn:Hn.
    2: { exfalso. apply nth_error_None in Hn.
         assert (i < length (process_ids st)) by (apply nth_error_Some; congruence).
         lia. }
    destruct (Hb idx id' Hlt' Hn) as (p' & Hp' & Hx' & Hw').
    rewrite Hp', (check_exited_pass env id' p' (objects st) Hx' Hw').
    apply IH; simpl; [done|done|lia|lia].
Qed.



(** A cycle that ends in an error ends [main]. *)
Lemma main_loop_cycle_err (env : ReapEnv) (st : EleD) (fuel : nat)
    (e : BoxError) (log : list LogEntry) :
  cycle env no_adds st = CycleErr e log -> main_loop env (S fuel) st = MainErr e log.
Proof. simpl. by intros ->. Qed.

(** C6 counterexample: record 1 has exited and [ObjectServer::remove]
    answers [Ok(false)]: the reaper logs the failure and [main] returns the
    error, so the loop does not keep running. *)
Lemma C6_unregister_failure_ends_main :
  main_loop env_rm_kept 5 st_one_done
    = MainErr (BoxMsg "failed to unregister process") [LogUnregisterFailed 1].
Proof. vm_compute. reflexivity. Qed.

(** C6 (amended): when the scan reaches a record at index [i] (every
    earlier record's child still running) whose child has exited and whose
    deregistration fails ([Ok(false)] or an error), [check_exited] closes
    the pty, logs [failed to unregister process {id}] and returns an
    error; the cycle passes it on and [main] returns it, which ends the
    reaper loop and the daemon. *)
Theorem C6_unregister_failure_logged_and_fatal (env : ReapEnv) (st : EleD)
    (i id : nat) (p : EleProcess) (c : Child) (t : Pty) (fuel : nat)
    (Hi : nth_error (process_ids st) i = Some id)
    (Hb : forall j id', j < i -> nth_error (process_ids st) j = Some id' ->
        exists p', objects st !! id' = Some p' /\ has_exited p' = false /\
                   (child p' = None \/ try_wait_fails env id' = false))
    (Hp : objects st !! id = Some p)
    (Hc : child p = Some c) (Hx : child_exited c = true)
    (Hw : try_wait_fails env id = false) (Ht : pty p = Some t)
    (Hr : remove_result env id <> RemovedDestroyed) :
  (exists objs', check_exited env id p (objects st)
     = (CRErr (BoxMsg "failed to unregister process"), objs', [pty_fd t],
        [LogUnregisterFailed id])) /\
  cycle env no_adds st
    = CycleErr (BoxMsg "failed to unregister process") [LogUnregisterFailed id] /\
  main_loop env (S fuel) st
    = MainErr (BoxMsg "failed to unregister process") [LogUnregisterFailed id].
Proof.
  assert (exists objs', check_exited env id p (objects st)
     = (CRErr (BoxMsg "failed to unregister process"), objs', [pty_fd t],
        [LogUnregisterFailed id])) as [objs' Hce].
  { unfold check_exited. rewrite Hc, Hw, Hx, Ht. simpl.
    destruct (remove_result env id); [congruence|eauto|eauto]. }
  assert (Hlt : i < 0 + length (process_ids st))
    by (simpl; apply nth_error_Some; congruence).
  assert (cycle env no_adds st
    = CycleErr (BoxMsg "failed to unregister process") [LogUnregisterFailed id])
    as Hcy.
  { unfold cycle.
    exact (scan_err_at env st i id p _ _ objs' [pty_fd t] Hi Hp Hce Hb
             (length (process_ids st)) 0 [] st eq_refl eq_refl (Nat.le_0_l i) Hlt). }
  split; [eauto|]. split; [exact Hcy|]. by apply main_loop_cycle_err.
Qed.

Lemma C6_unregister_failure_logged_and_fatal_witness :
  main_loop env_rm_kept 1 st_cfg_then_done
    = MainErr (BoxMsg "failed to unregister process") [LogUnregisterFailed 2].
Proof.
  destruct (child proc_done2) as [c|] eqn:Hc; [|vm_compute in Hc; discriminate].
  refine (proj2 (proj2 (C6_unregister_failure_logged_and_fatal env_rm_kept
            st_cfg_then_done 1 2 proc_done2 c {| pty_fd := 8 |} 0
            eq_refl _ eq_refl Hc _ eq_refl eq_refl _))).
  - intros j id' Hj Hjn. destruct j as [|j]; [|lia].
    simpl in Hjn. injection Hjn as <-. exists proc_cfg.
    split; [reflexivity|]. split; [reflexivity|]. left; reflexivity.
  - revert Hc. vm_compute. intros [= <-]. reflexivity.
  - discriminate.
Defined.

(* ------------------------------------------------------------------ *)
(** ** Registry and publication *)

(** C3 (failing input): right after the first [create] has pushed id 1 to
    [PROCESS_IDS] and is suspended at [object_server.at(..).await], the
    daemon is in a reachable state where id 1 is registered but not
    published; a reaper pass run there fails at [interface(..).await?]
    and [main] returns, ending the daemon. *)
Theorem C3_registered_but_unpublished :
  reachable w_create_suspended /\
  process_ids (w_st w_create_suspended) = [1] /\
  objects (w_st w_create_suspended) !! 1 = None /\
  registered_iff_published (w_st w_create_suspended) 1 = false /\
  (forall env fuel, main_loop env (S fuel) (w_st w_create_suspended)
     = MainErr (BoxFdo InterfaceNotFound) []).
Proof.
  split.
  - eapply reach_step; [apply reach_init|].
    unfold w_create_suspended.
    destruct (create_begin cos_ok h_owner "root" ["/bin/echo"; "hi"] (w_st world_init))
      as [[[r st'] pend] eff] eqn:Hcb.
    eapply StepCreateBegin; [reflexivity|exact Hcb].
  - split; [reflexivity|]. split; [reflexivity|]. split; [reflexivity|].
    intros env fuel. reflexivity.
Qed.

(* ------------------------------------------------------------------ *)
(** ** Raw mode in the interactive client *)

(** C9 (failing input): stdin and stdout are ttys and [copy_bidirectional]
    fails (the remote side goes away and the pty read errors): the [?]
    returns before [reset_terminal], so the terminal is left in raw mode
    and never restored; on the successful path it is restored once. *)
Theorem C9_relay_error_leaves_raw_mode :
  let env_fail := {| fd_is_terminal := true; stdin_isatty := true;
                     stdout_isatty := true; relay_ok := false |} in
  let env_ok := {| fd_is_terminal := true; stdin_isatty := true;
                   stdout_isatty := true; relay_ok := true |} in
  interactive_branch env_fail cooked
    = {| io_result := Err IOError; io_tcsetattr := [cfmakeraw cooked];
         io_restores := 0 |} /\
  final_mode cooked (interactive_branch env_fail cooked) = cfmakeraw cooked /\
  cfmakeraw cooked <> cooked /\
  io_restores (interactive_branch env_ok cooked) = 1 /\
  final_mode cooked (interactive_branch env_ok cooked) = cooked.
Proof. repeat split; try reflexivity. discriminate. Qed.

(* ------------------------------------------------------------------ *)
(** ** Records keep their pty; [create]'s two outcomes *)

(** The methods never change a record's owner or pty. *)
Lemma proc_call_keeps_pty (os : SpawnOS) (h : Header) (c : ProcCall)
    (p : EleProcess) :
  pty (snd (proc_call os h c p)) = pty p /\
  sender (snd (proc_call os h c p)) = sender p.
Proof.
  destruct c; simpl;
    [unfold environment|unfold directory|unfold resize|unfold spawn|];
    repeat (case_match; simpl); auto.
Qed.

(** [create_begin] either changes nothing, or registers [next_id] and
    hands over a record, owned by the caller, that holds its pty. *)
Lemma create_begin_cases (os : CreateOS) (h : Header) (user : string)
    (argv : list string) (st st' : EleD) (r : Outcome nat)
    (pend : option (nat * EleProcess)) (eff : list Effect) :
  create_begin os h user argv st = (r, st', pend, eff) ->
  (st' = st /\ pend = None /\ forall v, r <> Ok v) \/
  (exists s p t, hdr_sender h = Some s /\ sender p = s /\ pty_new os = Some t /\
     pty p = Some t /\ child p = None /\
     r = Ok (next_id st) /\ pend = Some (next_id st, p) /\
     st' = {| next_id := usize_incr (next_id st);
              process_ids := process_ids st ++ [next_id st];
              objects := objects st; closed_fds := closed_fds st |}).
Proof.
  unfold create_begin.
  destruct (hdr_sender h) as [s|] eqn:Hs; [|intros [= <- <- <- _]; left; auto].
  destruct (negb (String.eqb user "root")); [intros [= <- <- <- _]; left; auto|].
  destruct (auth_result os); [|intros [= <- <- <- _]; left; auto..].
  unfold eleprocess_new.
  destruct (pty_new os) as [t|] eqn:Ht; [|intros [= <- <- <- _]; left; auto].
  destruct argv as [|prog rest]; [intros [= <- <- <- _]; left; auto|].
  intros [= <- <- <- _]. right. do 3 eexists. repeat split; eauto.
Qed.

Lemma check_exited_panic (env : ReapEnv) (id : nat) (p : EleProcess)
    (objs objs' : gmap nat EleProcess) (cl : list nat) (log : list LogEntry) :
  check_exited env id p objs = (CRPanic, objs', cl, log) -> pty p = None.
Proof.
  unfold check_exited.
  destruct (child p) as [c|]; [|discriminate].
  destruct (try_wait_fails env id); [discriminate|].
  destruct (child_exited c); simpl; [|discriminate].
  destruct (pty p); [|done].
  destruct (remove_result env id); discriminate.
Qed.

(** A cycle over records that all hold their pty never panics. *)
Lemma scan_no_panic (env : ReapEnv) :
  forall n idx st chk,
    idx + n <= length (process_ids st) ->
    (forall id p, objects st !! id = Some p -> pty p <> None) ->
    forall m, scan env no_adds n idx st chk <> CyclePanic m.
Proof.
  induction n as [|n IH]; intros idx st chk Hle Hpty m; cbn [scan]; [discriminate|].
  unfold no_adds. rewrite add_created_nil. cbv zeta.
  destruct (nth_error (process_ids st) idx) as [id|] eqn:Hn.
  2: { apply nth_error_None in Hn. lia. }
  destruct (objects st !! id) as [p|] eqn:Hp; [|discriminate].
  destruct (check_exited env id p (objects st)) as [[[res objs] cl] lg] eqn:Hce.
  destruct res as [[]| |]; try discriminate.
  - destruct (check_exited_false _ _ _ _ _ _ _ Hce) as [-> ->].
    apply IH; simpl; [lia|exact Hpty].
  - apply check_exited_panic in Hce. exfalso. exact (Hpty _ _ Hp Hce).
Qed.

Lemma spawn_panic_no_pty (os : SpawnOS) (h : Header) (p : EleProcess) :
  fst (spawn os h p) = Panic -> pty p = None.
Proof.
  unfold spawn. repeat (case_match; simpl); try congruence.
  exfalso. revert H. unfold check_caller. repeat case_match; discriminate.
Qed.

(* ------------------------------------------------------------------ *)
(** ** Authorization and [create] *)

(** An unauthorized [create] publishes nothing, registers nothing, uses no
    id and never allocates a pty; the authorization error is returned. *)
Theorem create_unauthorized_no_effect (a : AuthorityOS) (t : option Pty)
    (h : Header) (argv : list string) (st : EleD) (e : Error)
    (Hs : hdr_sender h <> None) (Ha : check_authorization a = Err e) :
  create (create_os a t) h "root" argv st = (Err e, st, [EffAuthQuery]).
Proof.
  unfold create, create_begin. destruct (hdr_sender h); [|congruence].
  simpl. rewrite Ha. reflexivity.
Qed.

Lemma create_unauthorized_no_effect_witness :
  create (create_os {| authority_proxy := None; subject_result := None;
                       polkit_reply := inr false |} (Some {| pty_fd := 7 |}))
         h_owner "root" ["/bin/sh"] eled_new
    = (Err AccessDenied, eled_new, [EffAuthQuery]).
Proof.
  apply create_unauthorized_no_effect; [discriminate|reflexivity].
Defined.

(** A [create] that fails leaves the daemon state exactly as it was. *)
Theorem create_failure_unchanged (os : CreateOS) (h : Header) (user : string)
    (argv : list string) (st st' : EleD) (r : Outcome nat) (eff : list Effect)
    (Hc : create os h user argv st = (r, st', eff)) (Hr : forall v, r <> Ok v) :
  st' = st.
Proof.
  unfold create in Hc.
  destruct (create_begin os h user argv st) as [[[r0 st0] pend] eff0] eqn:Hcb.
  destruct (create_begin_cases _ _ _ _ _ _ _ _ _ Hcb)
    as [(-> & -> & _) | (s & p & t & _ & _ & _ & _ & _ & -> & -> & ->)].
  - by injection Hc as _ <- _.
  - injection Hc as <- _ _. exfalso. exact (Hr _ eq_refl).
Qed.

Lemma create_failure_unchanged_witness :
  snd (fst (create cos_no_pty h_owner "root" ["/bin/sh"] eled_new)) = eled_new.
Proof.
  destruct (create cos_no_pty h_owner "root" ["/bin/sh"] eled_new)
    as [[r st'] eff] eqn:Hc. simpl.
  refine (create_failure_unchanged _ _ _ _ _ _ _ _ Hc _).
  vm_compute in Hc. injection Hc as <- _ _. discriminate.
Defined.

(* ------------------------------------------------------------------ *)
(** ** Reaper cleanup, configuration, terminal *)





(** The configuration methods compose: after a successful [environment]
    call, a second one acts as a single call with both lists in order; after
    a successful [directory] call, a second one acts as if the first had
    not happened (the last directory wins). *)
Theorem configuration_calls_compose (h : Header) (e1 e2 : list (string * string))
    (d1 d2 : string) (p pe pd : EleProcess)
    (He : environment h e1 p = (Ok RUnit, pe))
    (Hd : directory h d1 p = (Ok RUnit, pd)) :
  environment h e2 pe = environment h (e1 ++ e2) p /\
  directory h d2 pd = directory h d2 p.
Proof.
  unfold environment in He |- *. unfold directory in Hd |- *.
  destruct (check_caller p h) as [[]| |] eqn:Hcc; try discriminate.
  destruct (child p) as [c|] eqn:Hch; [discriminate|].
  injection He as <-. injection Hd as <-.
  unfold check_caller in Hcc |- *. unfold set_command at 1 3. simpl.
  rewrite Hcc, Hch. destruct p as [s t cmd ch]. simpl in *.
  unfold set_command, command_envs, command_current_dir. simpl.
  by rewrite app_assoc.
Qed.

Lemma configuration_calls_compose_witness :
  environment h_owner [("A", "1")] (snd (environment h_owner [("B", "2")] proc_cfg))
    = environment h_owner [("B", "2"); ("A", "1")] proc_cfg /\
  directory h_owner "/srv" (snd (directory h_owner "/tmp" proc_cfg))
    = directory h_owner "/srv" proc_cfg.
Proof.
  exact (configuration_calls_compose h_owner [("B", "2")] [("A", "1")] "/tmp" "/srv"
           proc_cfg _ _ (eq_refl : environment h_owner [("B", "2")] proc_cfg = (Ok RUnit, _))
           (eq_refl : directory h_owner "/tmp" proc_cfg = (Ok RUnit, _))).
Defined.

(** The interactive branch changes the terminal only when the received
    descriptor is a terminal and both stdin and stdout are ttys, and the
    first attributes it sets are the raw version of the current ones. *)
Theorem interactive_touches_terminal_only_on_ttys (env : TermEnv) (cur : Termios)
    (Ht : io_tcsetattr (interactive_branch env cur) <> []) :
  fd_is_terminal env = true /\ stdin_isatty env = true /\
  stdout_isatty env = true /\
  head (io_tcsetattr (interactive_branch env cur)) = Some (cfmakeraw cur).
Proof.
  revert Ht. unfold interactive_branch, set_raw.
  destruct (fd_is_terminal env), (stdin_isatty env), (stdout_isatty env),
    (relay_ok env); simpl; intros Ht; try congruence; auto.
Qed.

Lemma interactive_touches_terminal_only_on_ttys_witness :
  let env := {| fd_is_terminal := true; stdin_isatty := true;
                stdout_isatty := true; relay_ok := false |} in
  io_tcsetattr (interactive_branch env cooked) <> [] /\
  head (io_tcsetattr (interactive_branch env cooked)) = Some (cfmakeraw cooked).
Proof.
  intros env. assert (Hne : io_tcsetattr (interactive_branch env cooked) <> [])
    by (vm_compute; discriminate).
  split; [exact Hne|].
  exact (proj2 (proj2 (proj2 (interactive_touches_terminal_only_on_ttys env cooked Hne)))).
Defined.

(* ------------------------------------------------------------------ *)
(** ** Reachable daemon states *)

Lemma child_terminates_pty (st : EleD) (id : nat) :
  forall k q, objects (child_terminates st id) !! k = Some q ->
  exists q0, objects st !! k = Some q0 /\ pty q = pty q0.
Proof.
  intros k q Hq. unfold child_terminates in Hq.
  destruct (objects st !! id) as [p|] eqn:Hp; [|eauto].
  destruct (child p) as [c|]; [|eauto].
  simpl in Hq. apply lookup_insert_Some in Hq as [[<- <-]|[_ Hq]]; eauto.
Qed.

Lemma child_terminates_ids (st : EleD) (id : nat) :
  process_ids (child_terminates st id) = process_ids st.
Proof.
  unfold child_terminates.
  destruct (objects st !! id); [destruct (child e)|]; reflexivity.
Qed.

Lemma step_world_safe (w w' : World) : step w w' -> world_safe w -> world_safe w'.
Proof.
  intros Hst (Hobj & Hpend & Hre).
  destruct Hst as [os h user argv w r st' pend eff _ Hcb
                  | w l1 id p l2 _ Hpe
                  | os h id c w r st' _ Hc
                  | w id _
                  | w _ Hnone
                  | env w n idx st' chk rp log _ Hrw Hs
                  | w idx _ Hrw
                  | env w n idx e log _ Hrw Hs
                  | env w n idx msg _ Hrw Hs];
    unfold world_safe; simpl.
  - destruct (create_begin_cases _ _ _ _ _ _ _ _ _ Hcb)
      as [(-> & -> & _) | (s & p & t & _ & _ & _ & Hpt & _ & _ & -> & ->)];
      simpl; [by auto|].
    split; [exact Hobj|]. split.
    + intros id q [[= _ <-]|Hq]; [congruence|exact (Hpend _ _ Hq)].
    + intros n idx Hw. specialize (Hre _ _ Hw). rewrite length_app. lia.
  - split; [|split; [|exact Hre]].
    + intros k q Hq. apply lookup_insert_Some in Hq as [[<- <-]|[_ Hq]].
      * apply (Hpend id). rewrite Hpe. apply in_or_app. right. by left.
      * exact (Hobj _ _ Hq).
    + intros k q Hq. apply (Hpend k). rewrite Hpe.
      apply in_app_or in Hq as [Hq|Hq]; apply in_or_app; [by left|right; by right].
  - unfold call_object in Hc.
    destruct (objects (w_st w) !! id) as [p|] eqn:Hp;
      [|injection Hc as _ <-; by auto].
    destruct (proc_call os h c p) as [r0 p'] eqn:Hpc. injection Hc as _ <-.
    destruct (proc_call_keeps_pty os h c p) as [Hpty _]. rewrite Hpc in Hpty.
    simpl in Hpty. split; [|split; [exact Hpend|exact Hre]].
    intros k q Hq. cbn [objects] in Hq. apply lookup_insert_Some in Hq as [[<- <-]|[_ Hq]].
    + rewrite Hpty. exact (Hobj _ _ Hp).
    + exact (Hobj _ _ Hq).
  - split; [|split; [exact Hpend|]].
    + intros k q Hq. destruct (child_terminates_pty _ _ _ _ Hq) as (q0 & Hq0 & ->).
      exact (Hobj _ _ Hq0).
    + rewrite child_terminates_ids. exact Hre.
  - split; [exact Hobj|]. split; [exact Hpend|].
    intros n idx [= <- <-]. lia.
  - specialize (Hre _ _ Hrw). cbn [scan] in Hs.
    unfold no_adds in Hs. rewrite add_created_nil in Hs. cbv zeta in Hs.
    destruct (nth_error (process_ids (w_st w)) idx) as [id0|] eqn:Hn; [|discriminate].
    destruct (objects (w_st w) !! id0) as [p0|] eqn:Hp0; [|discriminate].
    destruct (check_exited env id0 p0 (objects (w_st w))) as [[[res objs] cl] lg] eqn:Hce.
    destruct res as [[]| |]; try discriminate.
    + injection Hs as <- _ <- _.
      destruct (check_exited_true _ _ _ _ _ _ _ Hce) as [-> _]. simpl.
      split; [|split; [exact Hpend|discriminate]].
      intros k q Hq. apply lookup_delete_Some in Hq as [_ Hq]. exact (Hobj _ _ Hq).
    + destruct (check_exited_false _ _ _ _ _ _ _ Hce) as [-> ->].
      injection Hs as <- _ <- _. simpl.
      split; [exact Hobj|]. split; [exact Hpend|].
      intros n' idx' [= <- <-]. lia.
  - split; [exact Hobj|]. split; [exact Hpend|]. discriminate.
  - auto.
  - auto.
Qed.

Lemma reachable_world_safe (w : World) : reachable w -> world_safe w.
Proof.
  induction 1 as [|w w' _ IH Hst].
  - unfold world_safe; simpl. split; [|split; [done|discriminate]].
    intros id p H. by rewrite lookup_empty in H.
  - exact (step_world_safe w w' Hst IH).
Qed.

Lemma reachable_create_suspended : reachable w_create_suspended.
Proof.
  eapply reach_step; [apply reach_init|].
  unfold w_create_suspended.
  destruct (create_begin cos_ok h_owner "root" ["/bin/echo"; "hi"] (w_st world_init))
    as [[[r st'] pend] eff] eqn:Hcb.
  eapply StepCreateBegin; [reflexivity|exact Hcb].
Qed.

(** In every reachable state of the daemon, with handlers, child exits and
    the reaper's iterations interleaved at their [.await]s, a reaper
    iteration never panics (neither the [expect] on the index re-read nor
    the [expect] on the pty), and [spawn] on any object never panics. *)
Theorem reachable_reaper_and_spawn_never_panic (w : World) (Hr : reachable w) :
  (forall env n idx m, w_reaper w = Some (S n, idx) ->
     scan env no_adds 1 idx (w_st w) [] <> CyclePanic m) /\
  (forall os h id, fst (call_object os h id CallSpawn (w_st w)) <> Panic).
Proof.
  destruct (reachable_world_safe w Hr) as (Hobj & _ & Hre). split.
  - intros env n idx m Hw. apply scan_no_panic; [|exact Hobj].
    specialize (Hre _ _ Hw). lia.
  - intros os h id. unfold call_object.
    destruct (objects (w_st w) !! id) as [p|] eqn:Hp; [|discriminate].
    cbn [proc_call]. destruct (spawn os h p) as [r p'] eqn:Hsp. simpl. intros ->.
    apply (Hobj _ _ Hp). apply (spawn_panic_no_pty os h p). by rewrite Hsp.
Qed.

Lemma reachable_reaper_and_spawn_never_panic_witness :
  reachable w_reaping /\ process_ids (w_st w_reaping) = [1] /\
  (forall m, scan env_ok no_adds 1 0 (w_st w_reaping) [] <> CyclePanic m).
Proof.
  assert (Hr : reachable w_reaping).
  { eapply reach_step; [eapply reach_step; [exact reachable_create_suspended|]|].
    - apply (StepPublish w_create_suspended [] 1 proc_cfg []); reflexivity.
    - apply (StepReapStart w_published); reflexivity. }
  split; [exact Hr|]. split; [reflexivity|].
  intros m. exact (proj1 (reachable_reaper_and_spawn_never_panic w_reaping Hr)
                     env_ok 0 0 m eq_refl).
Defined.


